(** * India Export Market Intelligence: the data pipeline of [app.py]

    A shallow embedding of [load_data] (app.py, lines 26-52) and of the
    summary scalar [total_exports] (line 83).

    Modelling conventions.
    - The frame that [pd.read_csv] returns is a header of column labels and
      a list of rows of cells.  A cell is a number, a string or NaN.  A row
      shorter than the header reads as NaN in the missing positions, which
      is how [read_csv] pads short lines.
    - Numbers are exact rationals ([Qc], canonical, so that Leibniz equality
      is numeric equality); NaN of a numeric column is [None].  Rounding
      and infinities of float64 are outside the model.
    - A column label is looked up by its first occurrence in the header.
      Where the labels of the header are distinct this is [df[label]];
      with a repeated label pandas selects a sub-frame instead of a
      column, so the theorems that state a successful load assume the
      renamed header free of repetitions.
    - The string-to-number conversion inside [pd.to_numeric] belongs to
      pandas; it is a parameter [str_to_float] of the development.
    - Python exceptions are the left summand of [Error + _]. *)

From Stdlib Require Import Ascii QArith Qcanon.
From stdpp Require Import base option list strings numbers sorting.

Local Open Scope string_scope.
Local Open Scope list_scope.

(** ** Cells, frames and errors *)

Inductive Cell : Type :=
  | CNum (q : Qc)
  | CStr (s : string)
  | CNaN.

Global Instance Cell_eq_dec : EqDecision Cell.
Proof. solve_decision. Defined.

Record DataFrame : Type := mkDataFrame {
  columns : list string;
  rows : list (list Cell)
}.

Inductive Error : Type :=
  | KeyError (label : string).

Global Instance Error_eq_dec : EqDecision Error.
Proof. solve_decision. Defined.

Definition result (A : Type) : Type := (Error + A)%type.

Global Instance result_bind : MBind result := λ A B f x,
  match x with
  | inl e => inl e
  | inr a => f a
  end.

Global Instance result_fmap : FMap result := λ A B f x,
  match x with
  | inl e => inl e
  | inr a => inr (f a)
  end.

(** ** Column labels (lines 30-35) *)

Definition IMPORTERS : string := "Importers".
Definition VALUE_2024 : string :=
  "Select your indicators-Value exported in 2024 (USD thousand)".
Definition GROWTH_2020_2024 : string :=
  "Select your indicators-Growth in exported value between 2020-2024 (%, p.a.)".
Definition RANKING : string :=
  "Select your indicators-Ranking of partner countries in world imports".

Definition rename_label (c : string) : string :=
  if decide (c = IMPORTERS) then "country"
  else if decide (c = VALUE_2024) then "export_value"
  else if decide (c = GROWTH_2020_2024) then "growth"
  else if decide (c = RANKING) then "world_rank"
  else c.

(** [df.rename(columns={...})] *)
Definition rename (df : DataFrame) : DataFrame :=
  {| columns := rename_label <$> columns df; rows := rows df |}.

(** Position of a label in the header; [df[label]] raises [KeyError] when
    there is none. *)
Definition get_loc (df : DataFrame) (label : string) : result nat :=
  match list_find (λ c, c = label) (columns df) with
  | Some (i, _) => inr i
  | None => inl (KeyError label)
  end.

Definition cell_at (i : nat) (r : list Cell) : Cell := default CNaN (r !! i).

(** The cell of row [r] under [label]; NaN when the frame has no such
    column. *)
Definition field (df : DataFrame) (label : string) (r : list Cell) : Cell :=
  match get_loc df label with
  | inr i => cell_at i r
  | inl _ => CNaN
  end.

Definition REQUIRED : list string :=
  ["country"; "export_value"; "growth"; "world_rank"].

(** [df] has the four columns [load_data] reads. *)
Definition has_required (df : DataFrame) : Prop :=
  Forall (λ c, c ∈ columns df) REQUIRED.

(** The rows of [df] that are not the world aggregate. *)
Definition non_aggregate (df : DataFrame) : list (list Cell) :=
  filter (λ r, field df "country" r ≠ CStr "World") (rows df).

(** Two frames with one header whose rows agree, pair by pair, in every
    column but [world_rank]. *)
Definition same_but_world_rank (df1 df2 : DataFrame) : Prop :=
  columns df1 = columns df2 ∧
  Forall2 (λ r1 r2, ∀ label, label ≠ "world_rank" →
                    field df1 label r1 = field df1 label r2)
          (rows df1) (rows df2).

(** ** Aggregate exclusion (line 38): [df[df["country"] != "World"]] *)

Definition not_world (c : Cell) : bool := bool_decide (c ≠ CStr "World").

Definition drop_world (ci : nat) (rs : list (list Cell)) : list (list Cell) :=
  filter (λ r, not_world (cell_at ci r) = true) rs.

(** ** Median of a numeric column, NaN skipped *)

Definition two : Qc := Q2Qc (2 # 1).

Definition median_of (xs : list Qc) : option Qc :=
  let s := merge_sort Qcle xs in
  let n := length s in
  if Nat.even n
  then a ← s !! (n / 2 - 1); b ← s !! (n / 2); Some ((a + b) / two)%Qc
  else s !! (n / 2).

Definition dropna (col : list (option Qc)) : list Qc := omap id col.

(** [Series.median()] *)
Definition median (col : list (option Qc)) : option Qc := median_of (dropna col).

(** [Series.fillna(x)] on a numeric column *)
Definition fillna (x : Qc) (col : list (option Qc)) : list Qc := default x <$> col.

(** [Series.sum()]: NaN is summed as 0 *)
Definition sum (col : list (option Qc)) : Qc :=
  foldr Qcplus (Q2Qc 0) (fillna (Q2Qc 0) col).

(** ** Comparisons of a float column with a scalar: NaN compares false *)

Definition ge (a b : option Qc) : bool :=
  match a, b with
  | Some x, Some y => bool_decide (y ≤ x)%Qc
  | _, _ => false
  end.

Definition lt (a b : option Qc) : bool :=
  match a, b with
  | Some x, Some y => bool_decide (x < y)%Qc
  | _, _ => false
  end.

Definition zero : option Qc := Some (Q2Qc 0).

(** ** Rows of the frame after coercion and after classification *)

Record Coerced : Type := mkCoerced {
  c_country : Cell;
  c_export_value : option Qc;
  c_growth : option Qc;
  c_world_rank : option Qc
}.

Record MarketRecord : Type := mkMarketRecord {
  country : Cell;
  export_value : option Qc;
  growth : option Qc;
  world_rank : option Qc;
  strategy : string
}.

Definition Dataset : Type := list MarketRecord.

(** [df["strategy"] = label]: a new column holding [label] in every row *)
Definition add_strategy (label : string) (r : Coerced) : MarketRecord :=
  {| country := c_country r; export_value := c_export_value r;
     growth := c_growth r; world_rank := c_world_rank r; strategy := label |}.

Definition set_strategy (label : string) (r : MarketRecord) : MarketRecord :=
  {| country := country r; export_value := export_value r;
     growth := growth r; world_rank := world_rank r; strategy := label |}.

(** [df.loc[mask, "strategy"] = label] *)
Definition loc_assign (mask : MarketRecord → bool) (label : string)
    (ds : Dataset) : Dataset :=
  (λ r, if mask r then set_strategy label r else r) <$> ds.

(** Lines 44-50 *)
Definition classify (df : list Coerced) : Dataset :=
  let median_value := median (c_export_value <$> df) in
  let df := add_strategy "Watch" <$> df in
  let df := loc_assign
    (λ r, ge (export_value r) median_value && ge (growth r) zero) "Invest" df in
  let df := loc_assign
    (λ r, lt (export_value r) median_value && ge (growth r) zero) "Nurture" df in
  let df := loc_assign
    (λ r, ge (export_value r) median_value && lt (growth r) zero) "Defend" df in
  df.

Section pipeline.

(** How pandas reads a string as a float; [None] when it cannot. *)
Variable str_to_float : string → option Qc.

(** [pd.to_numeric(_, errors="coerce")] on one cell (line 42) *)
Definition to_numeric (c : Cell) : option Qc :=
  match c with
  | CNum q => Some q
  | CStr s => str_to_float s
  | CNaN => None
  end.

Definition coerce_row (ci ei gi wi : nat) (r : list Cell) : Coerced :=
  {| c_country := cell_at ci r;
     c_export_value := to_numeric (cell_at ei r);
     c_growth := to_numeric (cell_at gi r);
     c_world_rank := to_numeric (cell_at wi r) |}.

(** [load_data] on the frame read from the file. *)
Definition load_data (raw : DataFrame) : result Dataset :=
  let df := rename raw in
  ci ← get_loc df "country";
  let rs := drop_world ci (rows df) in
  ei ← get_loc df "export_value";
  gi ← get_loc df "growth";
  wi ← get_loc df "world_rank";
  inr (classify (coerce_row ci ei gi wi <$> rs)).

(** The same, with the cells of a row found by label: the row of the
    coerced frame that a raw row becomes. *)
Definition coerced (df : DataFrame) (r : list Cell) : Coerced :=
  {| c_country := field df "country" r;
     c_export_value := to_numeric (field df "export_value" r);
     c_growth := to_numeric (field df "growth" r);
     c_world_rank := to_numeric (field df "world_rank" r) |}.

End pipeline.

(** A concrete string-to-number conversion, for the examples: signed
    decimal integers. *)
Definition digit_of (a : ascii) : option Z :=
  let n := Z.of_nat (nat_of_ascii a) in
  if decide (48 ≤ n ≤ 57)%Z then Some (n - 48)%Z else None.

Fixpoint digits_from (acc : Z) (s : string) : option Z :=
  match s with
  | EmptyString => Some acc
  | String a s' => d ← digit_of a; digits_from (10 * acc + d) s'
  end.

Definition int_literal (s : string) : option Qc :=
  match s with
  | EmptyString => None
  | String "-"%char (String a s') => (λ z, Qc_of_Z (- z)) <$> digits_from 0 (String a s')
  | String a s' => Qc_of_Z <$> digits_from 0 (String a s')
  end.

(** Line 83 *)
Definition total_exports (df : Dataset) : Qc := sum (export_value <$> df).

(** ** The quadrant rule, as the specification words it

    [quadrant v g m s]: a row of export value [v] and growth [g] is
    labelled [s] against the median [m]. *)

Definition LABELS : list string := ["Invest"; "Nurture"; "Defend"; "Watch"].

Inductive quadrant (v g m : Qc) : string → Prop :=
  | q_invest : (m ≤ v)%Qc → (0 ≤ g)%Qc → quadrant v g m "Invest"
  | q_nurture : (v < m)%Qc → (0 ≤ g)%Qc → quadrant v g m "Nurture"
  | q_defend : (m ≤ v)%Qc → (g < 0)%Qc → quadrant v g m "Defend"
  | q_watch : (v < m)%Qc → (g < 0)%Qc → quadrant v g m "Watch".

(** The label one row ends with, given the median: the last assignment
    whose mask selects the row, "Watch" when none does. *)
Definition label_of (median_value ev g : option Qc) : string :=
  if ge ev median_value && lt g zero then "Defend"
  else if lt ev median_value && ge g zero then "Nurture"
  else if ge ev median_value && ge g zero then "Invest"
  else "Watch".

(** ** Example frames *)

Definition HEADER : list string := [IMPORTERS; VALUE_2024; GROWTH_2020_2024; RANKING].

Definition num (z : Z) : Cell := CNum (Qc_of_Z z).

Definition quartet : DataFrame :=
  {| columns := HEADER;
     rows := [ [CStr "A"; num 10; num 1; num 1];
               [CStr "B"; num 20; num (-1); num 2];
               [CStr "C"; num 30; num 2; num 3];
               [CStr "D"; num 40; num (-2); num 4] ] |}.

Definition txt (z : string) : Cell := CStr z.

(** A frame as [read_csv] gives it when a numeric column holds a
    placeholder: the whole column is text. *)
Definition with_na : DataFrame :=
  {| columns := HEADER;
     rows := [ [CStr "A"; txt "10"; txt "1"; txt "1"];
               [CStr "B"; txt "N/A"; txt "3"; txt "2"];
               [CStr "C"; txt "30"; txt "-2"; txt "3"] ] |}.

Definition no_growth : DataFrame :=
  {| columns := [IMPORTERS; VALUE_2024; RANKING];
     rows := [ [CStr "A"; num 10; num 1]; [CStr "B"; num 20; num 2] ] |}.

Definition with_world : DataFrame :=
  {| columns := HEADER;
     rows := [ [CStr "World"; num 100; num 5; CNaN];
               [CStr "A"; num 10; num 1; num 1];
               [CStr "B"; num 20; num (-1); num 2] ] |}.

Definition only_world : DataFrame :=
  {| columns := HEADER;
     rows := [ [CStr "World"; num 100; num 5; CNaN];
               [CStr "World"; num 7; num 0; CNaN] ] |}.

Definition all_unparsable : DataFrame :=
  {| columns := HEADER;
     rows := [ [CStr "A"; txt "N/A"; txt "n.a."; txt "-"];
               [CStr "B"; txt "..."; CNaN; txt "?"] ] |}.

Definition reranked : DataFrame :=
  {| columns := HEADER;
     rows := [ [CStr "A"; num 10; num 1; num 40];
               [CStr "B"; num 20; num (-1); txt "N/A"];
               [CStr "C"; num 30; num 2; CNaN];
               [CStr "D"; num 40; num (-2); num 1] ] |}.

(** What [load_data] returns on an example frame, [int_literal] standing
    for the conversion of strings. *)
Definition loaded (raw : DataFrame) : Dataset :=
  match load_data int_literal raw with
  | inr ds => ds
  | inl _ => []
  end.

(** * The report (lines 76-180)

    What the page computes from the loaded frame once Analyze is pressed.
    The drawing calls of streamlit and plotly are not modelled; neither is
    [** 0.5] of line 131, a float operation. *)

(** ** Summary scalars (lines 83-90) *)

Definition Qcmax (x y : Qc) : Qc := if decide (x ≤ y)%Qc then y else x.

(** [Series.max()]: the largest present value, NaN when there is none *)
Definition max (col : list (option Qc)) : option Qc :=
  foldr (λ x acc, Some (from_option (Qcmax x) x acc)) None (dropna col).

(** [Series.nunique()]: the number of distinct values, NaN not counted *)
Definition nunique (col : list Cell) : nat :=
  length (remove_dups (filter (λ c, c ≠ CNaN) col)).

(** Line 88 *)
Definition active_markets (df : Dataset) : nat := nunique (country <$> df).

(** ** Sorting by export value, largest first (lines 112, 161, 162, 176)

    [sort_values("export_value", ascending=False)] puts the rows in
    descending order of export value with the NaN rows last.  Its default
    algorithm is not stable, so the order among rows of equal value is left
    open: the sort is a parameter constrained by [descending]. *)

Definition value_ge (a b : MarketRecord) : Prop :=
  match export_value a, export_value b with
  | _, None => True
  | None, Some _ => False
  | Some x, Some y => (y ≤ x)%Qc
  end.

Global Instance value_ge_dec : RelDecision value_ge.
Proof.
  intros a b. unfold value_ge.
  destruct (export_value a), (export_value b); apply _.
Defined.

Definition descending (sort_values : Dataset → Dataset) : Prop :=
  ∀ df, sort_values df ≡ₚ df ∧ Sorted value_ge (sort_values df).

(** One sort that meets the constraint, for the examples. *)
Definition stable_sort (df : Dataset) : Dataset := merge_sort value_ge df.

(** [DataFrame.head(n)] *)
Definition head (n : nat) (df : Dataset) : Dataset := take n df.

Definition notna (a : option Qc) : bool :=
  match a with
  | Some _ => true
  | None => false
  end.

Definition gt (a b : option Qc) : bool :=
  match a, b with
  | Some x, Some y => bool_decide (y < x)%Qc
  | _, _ => false
  end.

(** Line 129 *)
Definition scatter_df (df : Dataset) : Dataset :=
  filter (λ r, notna (export_value r) && gt (export_value r) zero = true) df.

(** Lines 148-149: the quadrant lines of the scatter plot *)
Definition scatter_median_growth (df : Dataset) : option Qc :=
  median (growth <$> scatter_df df).

Definition scatter_median_value (df : Dataset) : option Qc :=
  median (export_value <$> scatter_df df).

Inductive ReportError : Type :=
  | IndexError
  | TypeError.

(** [df.iloc[0]] *)
Definition iloc0 (df : Dataset) : ReportError + MarketRecord :=
  match df with
  | [] => inl IndexError
  | r :: _ => inr r
  end.

(** The cells as Python strings, when each of them is one. *)
Fixpoint strs (cells : list Cell) : option (list string) :=
  match cells with
  | [] => Some []
  | CStr s :: cells' => (λ l, s :: l) <$> strs cells'
  | _ :: _ => None
  end.

(** [sep.join(cells)]: [TypeError] when an item is not a string *)
Definition join (sep : string) (cells : list Cell) : ReportError + string :=
  match strs cells with
  | Some l => inr (String.concat sep l)
  | None => inl TypeError
  end.

Section report.

Variable sort_values : Dataset → Dataset.

(** Line 112 *)
Definition top10 (df : Dataset) : Dataset := head 10 (sort_values df).

(** Line 161 *)
Definition focus (df : Dataset) : Dataset :=
  head 3 (sort_values (filter (λ r, strategy r = "Invest") df)).

(** Line 162 *)
Definition risk_country (df : Dataset) : ReportError + MarketRecord :=
  iloc0 (sort_values df).

(** Line 166 *)
Definition priority_markets (df : Dataset) : ReportError + string :=
  join ", " (country <$> focus df).

End report.

(** * Properties *)

(** ** Comparisons *)

Lemma ge_Some (x y : Qc) : ge (Some x) (Some y) = true ↔ (y ≤ x)%Qc.
Proof. unfold ge. apply bool_decide_eq_true. Qed.

Lemma lt_Some (x y : Qc) : lt (Some x) (Some y) = true ↔ (x < y)%Qc.
Proof. unfold lt. apply bool_decide_eq_true. Qed.

Lemma ge_None_l b : ge None b = false.
Proof. done. Qed.

Lemma lt_None_l b : lt None b = false.
Proof. done. Qed.

Lemma ge_None_r a : ge a None = false.
Proof. by destruct a. Qed.

Lemma lt_None_r a : lt a None = false.
Proof. by destruct a. Qed.

Lemma lt_negb_ge (x y : Qc) : lt (Some x) (Some y) = negb (ge (Some x) (Some y)).
Proof.
  unfold lt, ge. rewrite <-bool_decide_not.
  apply bool_decide_ext, Qclt_nge.
Qed.

(** ** The median *)

Lemma length_merge_sort (xs : list Qc) : length (merge_sort Qcle xs) = length xs.
Proof. apply Permutation_length, merge_sort_Permutation. Qed.

Lemma merge_sort_perm (xs ys : list Qc) :
  xs ≡ₚ ys → merge_sort Qcle xs = merge_sort Qcle ys.
Proof.
  intros Hp. apply (Sorted_unique Qcle).
  - apply (Sorted_merge_sort Qcle).
  - apply (Sorted_merge_sort Qcle).
  - by rewrite !merge_sort_Permutation.
Qed.

Lemma median_of_perm (xs ys : list Qc) : xs ≡ₚ ys → median_of xs = median_of ys.
Proof. intros Hp. unfold median_of. by rewrite (merge_sort_perm xs ys). Qed.

Lemma median_of_is_Some (xs : list Qc) : xs ≠ [] → is_Some (median_of xs).
Proof.
  intros Hne. unfold median_of.
  assert (0 < length (merge_sort Qcle xs)) as Hlen.
  { rewrite length_merge_sort. destruct xs; [done | simpl; lia]. }
  set (s := merge_sort Qcle xs) in *.
  assert (length s / 2 < length s) as Hhalf by (apply Nat.div_lt; lia).
  destruct (lookup_lt_is_Some_2 s (length s / 2) Hhalf) as [b Hb].
  destruct (lookup_lt_is_Some_2 s (length s / 2 - 1)) as [a Ha]; [lia|].
  destruct (Nat.even (length s)); [|by eauto].
  rewrite Ha, Hb. simpl. eauto.
Qed.

Lemma median_perm (c1 c2 : list (option Qc)) : c1 ≡ₚ c2 → median c1 = median c2.
Proof. intros Hp. apply median_of_perm. unfold dropna. by rewrite Hp. Qed.

Lemma median_is_Some (col : list (option Qc)) (v : Qc) :
  Some v ∈ col → is_Some (median col).
Proof.
  intros Hin. apply median_of_is_Some. unfold dropna. intros Hnil.
  assert (v ∈ omap id col) as Hv by (apply list_elem_of_omap; eauto).
  rewrite Hnil in Hv. by apply not_elem_of_nil in Hv.
Qed.

Lemma median_all_missing (col : list (option Qc)) :
  Forall (λ x, x = None) col → median col = None.
Proof.
  intros Hall. unfold median, dropna.
  replace (omap id col) with (@nil Qc); [done|].
  induction Hall as [|x l -> _ IH]; [done|]. by simpl.
Qed.

(** ** The three masked assignments, row by row *)

Lemma classify_label (df : list Coerced) :
  classify df =
    (λ c, add_strategy
            (label_of (median (c_export_value <$> df)) (c_export_value c) (c_growth c)) c)
    <$> df.
Proof.
  unfold classify, loc_assign. rewrite <-!list_fmap_compose.
  apply list_fmap_ext. intros _ [cc ev g wr] _. unfold label_of.
  generalize (median (c_export_value <$> df)). intros m. cbn.
  destruct (ge ev m) eqn:E1, (lt ev m) eqn:E2,
    (ge g zero) eqn:E3, (lt g zero) eqn:E4;
    repeat (cbn; rewrite ?E1, ?E2, ?E3, ?E4); reflexivity.
Qed.

Lemma classify_fields (df : list Coerced) :
  export_value <$> classify df = c_export_value <$> df.
Proof.
  rewrite classify_label, <-list_fmap_compose. by apply list_fmap_ext.
Qed.

Lemma classify_countries (df : list Coerced) :
  country <$> classify df = c_country <$> df.
Proof.
  rewrite classify_label, <-list_fmap_compose. by apply list_fmap_ext.
Qed.

Lemma classify_growths (df : list Coerced) :
  growth <$> classify df = c_growth <$> df.
Proof.
  rewrite classify_label, <-list_fmap_compose. by apply list_fmap_ext.
Qed.

Lemma classify_perm (df1 df2 : list Coerced) :
  df1 ≡ₚ df2 → classify df1 ≡ₚ classify df2.
Proof.
  intros Hp. rewrite !classify_label.
  rewrite (median_perm (c_export_value <$> df1) (c_export_value <$> df2))
    by (by rewrite Hp).
  by rewrite Hp.
Qed.

Lemma label_of_in_LABELS m ev g : label_of m ev g ∈ LABELS.
Proof.
  unfold label_of, LABELS.
  repeat case_match; repeat constructor.
Qed.

Lemma label_of_missing m ev g : ev = None ∨ g = None → label_of m ev g = "Watch".
Proof.
  unfold label_of. intros [-> | ->];
    rewrite ?ge_None_l, ?lt_None_l, ?andb_false_r; simpl; reflexivity.
Qed.

Lemma label_of_no_median ev g : label_of None ev g = "Watch".
Proof. unfold label_of. by rewrite ge_None_r, lt_None_r. Qed.

Lemma label_of_quadrant (m v g : Qc) :
  quadrant v g m (label_of (Some m) (Some v) (Some g)).
Proof.
  unfold label_of, zero. rewrite !lt_negb_ge.
  destruct (ge (Some v) (Some m)) eqn:Hv, (ge (Some g) (Some (Q2Qc 0))) eqn:Hg; simpl.
  - apply q_invest; by apply ge_Some.
  - apply q_defend; [by apply ge_Some|].
    apply Qclt_nge. intros H. apply ge_Some in H. congruence.
  - apply q_nurture; [|by apply ge_Some].
    apply Qclt_nge. intros H. apply ge_Some in H. congruence.
  - apply q_watch; apply Qclt_nge; intros H; apply ge_Some in H; congruence.
Qed.

Lemma quadrant_functional (v g m : Qc) (s1 s2 : string) :
  quadrant v g m s1 → quadrant v g m s2 → s1 = s2.
Proof.
  intros H1 H2. destruct H1, H2; try reflexivity;
    repeat match goal with
    | H : (_ < _)%Qc |- _ => apply Qclt_nge in H
    end; tauto.
Qed.

(** ** Column lookup *)

Lemma get_loc_present (df : DataFrame) (label : string) :
  label ∈ columns df → ∃ i, get_loc df label = inr i.
Proof.
  intros Hin. unfold get_loc.
  destruct (list_find_elem_of (λ c, c = label) (columns df) label Hin eq_refl)
    as [[i c] ->].
  by exists i.
Qed.

Lemma get_loc_absent (df : DataFrame) (label : string) :
  label ∉ columns df → get_loc df label = inl (KeyError label).
Proof.
  intros Hnin. unfold get_loc.
  destruct (list_find _ _) as [[i c]|] eqn:Hf; [|done].
  apply list_find_Some in Hf as (Hl & -> & _).
  destruct Hnin. by eapply list_elem_of_lookup_2.
Qed.

Lemma get_loc_inr_present (df : DataFrame) (label : string) (i : nat) :
  get_loc df label = inr i → label ∈ columns df.
Proof.
  intros Hg. destruct (decide (label ∈ columns df)) as [|Hnin]; [done|].
  by rewrite (get_loc_absent _ _ Hnin) in Hg.
Qed.

Lemma field_at (df : DataFrame) (label : string) (i : nat) (r : list Cell) :
  get_loc df label = inr i → field df label r = cell_at i r.
Proof. intros Hg. unfold field. by rewrite Hg. Qed.

Lemma has_required_inv (df : DataFrame) :
  has_required df →
  "country" ∈ columns df ∧ "export_value" ∈ columns df ∧
  "growth" ∈ columns df ∧ "world_rank" ∈ columns df.
Proof.
  unfold has_required, REQUIRED. rewrite !Forall_cons. tauto.
Qed.

Section load_data_properties.

Variable str_to_float : string → option Qc.

Local Abbreviation load_data := (load_data str_to_float).
Local Abbreviation coerced := (coerced str_to_float).
Local Abbreviation to_numeric := (to_numeric str_to_float).

(** With the four columns present [load_data] returns, and what it
    returns is the classification of the coerced non-aggregate rows. *)
Lemma load_data_present (raw : DataFrame) :
  has_required (rename raw) →
  load_data raw =
    inr (classify (coerced (rename raw) <$> non_aggregate (rename raw))).
Proof.
  intros (Hc & He & Hg & Hw)%has_required_inv.
  destruct (get_loc_present _ _ Hc) as [ci Hci].
  destruct (get_loc_present _ _ He) as [ei Hei].
  destruct (get_loc_present _ _ Hg) as [gi Hgi].
  destruct (get_loc_present _ _ Hw) as [wi Hwi].
  unfold load_data. rewrite Hci, Hei, Hgi, Hwi. simpl.
  do 2 f_equal. unfold drop_world, non_aggregate. simpl.
  rewrite (list_filter_iff _
    (λ r, field (rename raw) "country" r ≠ CStr "World")).
  - apply list_fmap_ext. intros _ r _.
    unfold coerce_row, coerced.
    by rewrite (field_at _ _ _ _ Hci), (field_at _ _ _ _ Hei),
      (field_at _ _ _ _ Hgi), (field_at _ _ _ _ Hwi).
  - intros r. rewrite (field_at _ _ _ _ Hci). unfold not_world.
    apply bool_decide_eq_true.
Qed.

Lemma load_data_inr_required (raw : DataFrame) (ds : Dataset) :
  load_data raw = inr ds → has_required (rename raw).
Proof.
  unfold load_data. intros Hl.
  destruct (get_loc (rename raw) "country") as [|ci] eqn:Hci; [done|].
  destruct (get_loc (rename raw) "export_value") as [|ei] eqn:Hei; [done|].
  destruct (get_loc (rename raw) "growth") as [|gi] eqn:Hgi; [done|].
  destruct (get_loc (rename raw) "world_rank") as [|wi] eqn:Hwi; [done|].
  unfold has_required, REQUIRED.
  repeat (apply Forall_cons; split; [by eapply get_loc_inr_present|]).
  apply Forall_nil_2.
Qed.

Lemma load_data_inr (raw : DataFrame) (ds : Dataset) :
  load_data raw = inr ds →
  ds = classify (coerced (rename raw) <$> non_aggregate (rename raw)).
Proof.
  intros Hl. pose proof (load_data_inr_required _ _ Hl) as Hreq.
  rewrite (load_data_present _ Hreq) in Hl. congruence.
Qed.

End load_data_properties.

Lemma field_columns (df1 df2 : DataFrame) (label : string) (r : list Cell) :
  columns df1 = columns df2 → field df1 label r = field df2 label r.
Proof. intros Hc. unfold field, get_loc. by rewrite Hc. Qed.

Lemma get_loc_columns (df1 df2 : DataFrame) (label : string) :
  columns df1 = columns df2 → get_loc df1 label = get_loc df2 label.
Proof. intros Hc. unfold get_loc. by rewrite Hc. Qed.

Lemma total_exports_classify (df : list Coerced) :
  total_exports (classify df) = sum (c_export_value <$> df).
Proof. unfold total_exports. by rewrite classify_fields. Qed.

Lemma total_exports_missing_as_zero (ds1 ds2 : Dataset) (r r0 : MarketRecord) :
  export_value r = None → export_value r0 = Some (Q2Qc 0) →
  total_exports (ds1 ++ r :: ds2) = total_exports (ds1 ++ r0 :: ds2).
Proof.
  intros Hr Hr0. unfold total_exports, sum, fillna.
  rewrite !fmap_app, !fmap_cons. by rewrite Hr, Hr0.
Qed.

Lemma median_skip_missing (A B : list Coerced) (c : Coerced) :
  c_export_value c = None →
  median (c_export_value <$> (A ++ c :: B)) = median (c_export_value <$> (A ++ B)).
Proof.
  intros Hc. unfold median, dropna.
  rewrite !fmap_app, fmap_cons, !omap_app. simpl. by rewrite Hc.
Qed.

Lemma classify_strategy_ext (cs1 cs2 : list Coerced) :
  c_export_value <$> cs1 = c_export_value <$> cs2 →
  c_growth <$> cs1 = c_growth <$> cs2 →
  strategy <$> classify cs1 = strategy <$> classify cs2.
Proof.
  intros Hev Hg. rewrite !classify_label, <-!list_fmap_compose, Hev.
  generalize (median (c_export_value <$> cs2)). intros m.
  revert cs2 Hev Hg. induction cs1 as [|c1 cs1 IH]; intros [|c2 cs2]; try done.
  rewrite !fmap_cons. intros [= He Hev] [= Hg Hgs]. simpl.
  rewrite He, Hg. f_equal. by apply IH.
Qed.

(** Rows that agree outside [world_rank] are kept or dropped together and
    show the same cell under any other label. *)
Lemma agree_fields (df1 df2 : DataFrame) (rs1 rs2 : list (list Cell))
    (label : string) :
  columns df1 = columns df2 →
  Forall2 (λ r1 r2, ∀ l, l ≠ "world_rank" → field df1 l r1 = field df1 l r2)
          rs1 rs2 →
  label ≠ "world_rank" →
  field df1 label <$> filter (λ r, field df1 "country" r ≠ CStr "World") rs1
  = field df2 label <$> filter (λ r, field df2 "country" r ≠ CStr "World") rs2.
Proof.
  intros Hcols Hrows Hlabel.
  induction Hrows as [|r1 r2 rs1 rs2 Hr _ IH]; [done|].
  rewrite !filter_cons.
  pose proof (Hr "country" ltac:(done)) as Hcountry.
  rewrite (field_columns df1 df2 _ r2 Hcols) in Hcountry.
  rewrite Hcountry.
  destruct (decide (field df2 "country" r2 ≠ CStr "World")) as [H2|H2]; [|done].
  rewrite !fmap_cons, IH. f_equal.
  rewrite (Hr label Hlabel). by apply field_columns.
Qed.

Section claims.

Variable str_to_float : string → option Qc.

Local Abbreviation load_data := (load_data str_to_float).
Local Abbreviation coerced := (coerced str_to_float).
Local Abbreviation to_numeric := (to_numeric str_to_float).

(** Every loaded row carries the label that [label_of] computes from its
    own two fields and the median of the loaded export values. *)
Lemma loaded_row_label (raw : DataFrame) (ds : Dataset) (r : MarketRecord) :
  load_data raw = inr ds → r ∈ ds →
  strategy r = label_of (median (export_value <$> ds)) (export_value r) (growth r).
Proof.
  intros ->%load_data_inr Hin.
  rewrite classify_fields. rewrite classify_label in Hin.
  apply list_elem_of_fmap in Hin as (c & -> & _). done.
Qed.

Lemma load_data_perm (raw raw' : DataFrame) (ds : Dataset) :
  load_data raw = inr ds →
  columns raw' = columns raw → rows raw' ≡ₚ rows raw →
  ∃ ds', load_data raw' = inr ds' ∧ ds' ≡ₚ ds.
Proof.
  intros Hl Hcols Hrows.
  assert (columns (rename raw') = columns (rename raw)) as Hren
    by (simpl; by rewrite Hcols).
  pose proof (load_data_inr_required _ _ _ Hl) as Hreq.
  apply load_data_inr in Hl as ->.
  eexists. split.
  { apply load_data_present. unfold has_required. by rewrite Hren. }
  apply classify_perm.
  rewrite (list_fmap_ext (coerced (rename raw')) (coerced (rename raw))
             (non_aggregate (rename raw')) ).
  2:{ intros _ r _. unfold coerced. by rewrite !(field_columns _ _ _ _ Hren). }
  apply fmap_Permutation. unfold non_aggregate. simpl.
  rewrite (list_filter_iff _ (λ r, field (rename raw) "country" r ≠ CStr "World")).
  - by rewrite Hrows.
  - intros r. by rewrite (field_columns _ _ _ _ Hren).
Qed.

(** C1.  The Dataset that [load_data] returns has one row for each input
    row that is not the world aggregate, in the order of the input, with
    that row's country and its coerced export value and growth.  In it, a
    row whose export value [v] and growth [g] are both present is
    labelled by the quadrant rule against the median [m] of the present
    export values: [m ≤ v] and [0 ≤ g] give Invest, [v < m] and [0 ≤ g]
    give Nurture, [m ≤ v] and [g < 0] give Defend, [v < m] and [g < 0]
    give Watch.  The rule allows one label only, and reordering the rows
    of the input reorders the rows of the result without changing any of
    them. *)
Theorem strategy_follows_quadrant_rule (raw : DataFrame) (ds : Dataset) :
  load_data raw = inr ds →
  (country <$> ds
     = field (rename raw) "country" <$> non_aggregate (rename raw) ∧
   export_value <$> ds
     = (λ r, to_numeric (field (rename raw) "export_value" r))
         <$> non_aggregate (rename raw) ∧
   growth <$> ds
     = (λ r, to_numeric (field (rename raw) "growth" r))
         <$> non_aggregate (rename raw)) ∧
  (∀ r v g, r ∈ ds → export_value r = Some v → growth r = Some g →
     ∃ m, median (export_value <$> ds) = Some m ∧
          quadrant v g m (strategy r) ∧
          ∀ s, quadrant v g m s → s = strategy r) ∧
  (∀ raw', columns raw' = columns raw → rows raw' ≡ₚ rows raw →
     ∃ ds', load_data raw' = inr ds' ∧ ds' ≡ₚ ds).
Proof.
  intros Hl. split; [|split].
  - rewrite (load_data_inr _ _ _ Hl).
    rewrite classify_countries, classify_fields, classify_growths.
    by rewrite <-!list_fmap_compose.
  - intros r v g Hin Hv Hg.
    destruct (median_is_Some (export_value <$> ds) v) as [m Hm].
    { rewrite <-Hv. apply list_elem_of_fmap. eauto. }
    exists m. split; [done|].
    assert (quadrant v g m (strategy r)) as Hq.
    { rewrite (loaded_row_label _ _ _ Hl Hin), Hm, Hv, Hg.
      apply label_of_quadrant. }
    split; [done|]. intros s Hs. by eapply quadrant_functional.
  - intros raw'. by apply load_data_perm.
Qed.

(** C2.  In a loaded Dataset, a row whose export value is missing or
    whose growth is missing has strategy Watch. *)
Theorem missing_value_is_watch (raw : DataFrame) (ds : Dataset) (r : MarketRecord) :
  load_data raw = inr ds → r ∈ ds →
  export_value r = None ∨ growth r = None →
  strategy r = "Watch".
Proof.
  intros Hl Hin Hmiss. rewrite (loaded_row_label _ _ _ Hl Hin).
  by apply label_of_missing.
Qed.

(** C3.  In a loaded Dataset, the strategy of every row is one of the
    four labels Invest, Nurture, Defend, Watch. *)
Theorem strategy_is_a_label (raw : DataFrame) (ds : Dataset) (r : MarketRecord) :
  load_data raw = inr ds → r ∈ ds →
  strategy r ∈ ["Invest"; "Nurture"; "Defend"; "Watch"].
Proof.
  intros Hl Hin. rewrite (loaded_row_label _ _ _ Hl Hin).
  apply label_of_in_LABELS.
Qed.

(** C4.  When one of the four required columns is absent from the
    renamed header, [load_data] raises a [KeyError] naming an absent
    required column and returns no Dataset; when the absent one is the
    growth column and the two read before it are present, the error names
    the growth column. *)
Theorem missing_column_raises (raw : DataFrame) (c : string) :
  c ∈ REQUIRED → c ∉ columns (rename raw) →
  (∃ c', c' ∈ REQUIRED ∧ (c' ∉ columns (rename raw)) ∧
         load_data raw = inl (KeyError c')) ∧
  (c = "growth" → "country" ∈ columns (rename raw) →
   "export_value" ∈ columns (rename raw) →
   load_data raw = inl (KeyError "growth")).
Proof.
  intros Hc Hnin. unfold load_data. split.
  - destruct (decide ("country" ∈ columns (rename raw))) as [H1|H1].
    2:{ exists "country". rewrite (get_loc_absent _ _ H1).
        repeat split; [repeat constructor | done]. }
    destruct (get_loc_present _ _ H1) as [ci ->].
    destruct (decide ("export_value" ∈ columns (rename raw))) as [H2|H2].
    2:{ exists "export_value". rewrite (get_loc_absent _ _ H2).
        repeat split; [repeat constructor | done]. }
    destruct (get_loc_present _ _ H2) as [ei ->].
    destruct (decide ("growth" ∈ columns (rename raw))) as [H3|H3].
    2:{ exists "growth". rewrite (get_loc_absent _ _ H3).
        repeat split; [repeat constructor | done]. }
    destruct (get_loc_present _ _ H3) as [gi ->].
    destruct (decide ("world_rank" ∈ columns (rename raw))) as [H4|H4].
    2:{ exists "world_rank". rewrite (get_loc_absent _ _ H4).
        repeat split; [repeat constructor | done]. }
    exfalso. unfold REQUIRED in Hc.
    repeat (apply elem_of_cons in Hc as [-> | Hc]; [by destruct Hnin|]).
    by apply not_elem_of_nil in Hc.
  - intros -> H1 H2.
    destruct (get_loc_present _ _ H1) as [ci ->].
    destruct (get_loc_present _ _ H2) as [ei ->].
    by rewrite (get_loc_absent _ _ Hnin).
Qed.

(** C6.  No row of a loaded Dataset has country "World": the countries
    of the Dataset are those of the input rows other than the aggregate
    rows, in order, and putting one more aggregate row into the input,
    whatever its other cells hold, leaves the Dataset, and so the median
    behind its labels, as it was. *)
Theorem world_row_never_loaded (raw : DataFrame) (ds : Dataset) :
  load_data raw = inr ds →
  (∀ r, r ∈ ds → country r ≠ CStr "World") ∧
  country <$> ds = field (rename raw) "country" <$> non_aggregate (rename raw) ∧
  (∀ rs1 w rs2, rows raw = rs1 ++ rs2 →
     field (rename raw) "country" w = CStr "World" →
     load_data {| columns := columns raw; rows := rs1 ++ w :: rs2 |} = inr ds).
Proof.
  intros Hl. pose proof (load_data_inr_required _ _ _ Hl) as Hreq.
  apply load_data_inr in Hl as ->. rewrite classify_label.
  split; [|split].
  - intros r (c & -> & (x & -> & Hx)%list_elem_of_fmap)%list_elem_of_fmap.
    apply list_elem_of_filter in Hx as [Hx _]. done.
  - rewrite <-!list_fmap_compose. by apply list_fmap_ext.
  - intros rs1 w rs2 Hrows Hw.
    rewrite load_data_present by done.
    rewrite <-classify_label. do 3 f_equal.
    unfold non_aggregate. simpl. rewrite Hrows, !filter_app.
    f_equal. rewrite filter_cons_False; [done|].
    intros Hn. by apply Hn.
Qed.

(** C7.  Four rows with export values 10, 20, 30, 40 and growths 1, -1,
    2, -2: the median is 25 and the strategies are Nurture, Watch,
    Invest, Defend, in that order. *)
Theorem median_split_example :
  ∃ ds, load_data quartet = inr ds ∧
    export_value <$> ds = (λ z, Some (Qc_of_Z z)) <$> [10; 20; 30; 40]%Z ∧
    growth <$> ds = (λ z, Some (Qc_of_Z z)) <$> [1; -1; 2; -2]%Z ∧
    median (export_value <$> ds) = Some (Qc_of_Z 25) ∧
    strategy <$> ds = ["Nurture"; "Watch"; "Invest"; "Defend"].
Proof.
  eexists. split; [vm_compute; reflexivity|].
  split; [reflexivity|]. split; [reflexivity|]. split; [|reflexivity].
  vm_compute. f_equal. apply Qc_is_canon. reflexivity.
Qed.

(** C9.  With the four columns present and no label repeated in the
    renamed header, [load_data] returns on degenerate inputs too: a frame
    whose rows are all the world aggregate loads as the empty Dataset,
    and a frame whose numeric cells are all unparsable loads with every
    numeric field missing, an undefined median and strategy Watch in
    every row. *)
Theorem degenerate_inputs_load (raw : DataFrame) :
  NoDup (columns (rename raw)) →
  has_required (rename raw) →
  (Forall (λ r, field (rename raw) "country" r = CStr "World") (rows raw) →
   load_data raw = inr []) ∧
  (Forall (λ r, to_numeric (field (rename raw) "export_value" r) = None ∧
                to_numeric (field (rename raw) "growth" r) = None ∧
                to_numeric (field (rename raw) "world_rank" r) = None)
          (rows raw) →
   ∃ ds, load_data raw = inr ds ∧
     length ds = length (non_aggregate (rename raw)) ∧
     median (export_value <$> ds) = None ∧
     Forall (λ r, export_value r = None ∧ growth r = None ∧
                  world_rank r = None ∧ strategy r = "Watch") ds).
Proof.
  intros _ Hreq. rewrite (load_data_present _ _ Hreq). split.
  - intros Hall. do 2 f_equal.
    replace (non_aggregate (rename raw)) with (@nil (list Cell)); [done|].
    unfold non_aggregate. simpl. symmetry.
    induction Hall as [|r rs Hr _ IH]; [done|].
    by rewrite filter_cons_False by (intros Hn; by apply Hn).
  - intros Hall. eexists. split; [done|].
    assert (Forall (λ c, c_export_value c = None ∧ c_growth c = None ∧
                         c_world_rank c = None)
              (coerced (rename raw) <$> non_aggregate (rename raw))) as Hco.
    { apply Forall_fmap. unfold non_aggregate.
      apply Forall_forall. intros r [_ Hr]%list_elem_of_filter.
      rewrite Forall_forall in Hall. by apply Hall. }
    assert (median (c_export_value <$>
              (coerced (rename raw) <$> non_aggregate (rename raw))) = None) as Hm.
    { apply median_all_missing, Forall_fmap.
      eapply Forall_impl; [exact Hco|]. by intros c (? & _). }
    split; [|split].
    + by rewrite classify_label, !length_fmap.
    + by rewrite classify_fields.
    + rewrite classify_label, Hm. apply Forall_fmap.
      eapply Forall_impl; [exact Hco|].
      intros c (He & Hg & Hw). simpl.
      by rewrite He, Hg, Hw, label_of_no_median.
Qed.

Lemma load_data_rows (raw : DataFrame) (rs : list (list Cell)) :
  has_required (rename raw) →
  load_data {| columns := columns raw; rows := rs |}
  = inr (classify (coerced (rename raw) <$>
           filter (λ r, field (rename raw) "country" r ≠ CStr "World") rs)).
Proof. intros Hreq. by rewrite load_data_present. Qed.

(** C5.  With the four columns present and no label repeated in the
    renamed header, a row whose export_value cell does not parse as a
    number (the string "N/A", say) does not make [load_data] fail, and
    the total of export values is the same whatever the unparsable cell
    holds.  A row that is the world aggregate is dropped by line 38, and
    the Dataset is the one of the input without that row.  Any other row
    is in the Dataset, at its place among the kept rows and with the
    other rows as they are without it, with its country, a missing
    export value and strategy Watch; it adds nothing to the total, which
    is the total of the Dataset with 0 for the export value of that
    row. *)
Theorem unparsable_export_value_is_missing
    (raw : DataFrame) (rs1 rs2 : list (list Cell)) (r : list Cell) :
  NoDup (columns (rename raw)) →
  has_required (rename raw) →
  rows raw = rs1 ++ r :: rs2 →
  to_numeric (field (rename raw) "export_value" r) = None →
  ∃ ds ds',
    load_data raw = inr ds ∧
    load_data {| columns := columns raw; rows := rs1 ++ rs2 |} = inr ds' ∧
    (∀ r', field (rename raw) "country" r' = field (rename raw) "country" r →
           to_numeric (field (rename raw) "export_value" r') = None →
           ∃ dr, load_data {| columns := columns raw; rows := rs1 ++ r' :: rs2 |}
                 = inr dr ∧
                 total_exports dr = total_exports ds) ∧
    (field (rename raw) "country" r = CStr "World" → ds = ds') ∧
    (field (rename raw) "country" r ≠ CStr "World" →
     ∃ ds1 rec ds2,
       ds = ds1 ++ rec :: ds2 ∧ ds' = ds1 ++ ds2 ∧
       length ds1
       = length (filter (λ r, field (rename raw) "country" r ≠ CStr "World") rs1) ∧
       country rec = field (rename raw) "country" r ∧
       export_value rec = None ∧
       strategy rec = "Watch" ∧
       total_exports ds
       = total_exports
           (ds1 ++ {| country := country rec; export_value := Some (Q2Qc 0);
                      growth := growth rec; world_rank := world_rank rec;
                      strategy := strategy rec |} :: ds2)).
Proof.
  intros _ Hreq Hrows Hna.
  assert (load_data raw
          = inr (classify (coerced (rename raw) <$>
                   filter (λ r, field (rename raw) "country" r ≠ CStr "World")
                          (rs1 ++ r :: rs2)))) as ->.
  { rewrite (load_data_present _ _ Hreq). unfold non_aggregate.
    simpl rows. by rewrite Hrows. }
  rewrite (load_data_rows _ _ Hreq).
  do 2 eexists. split; [reflexivity|]. split; [reflexivity|]. split.
  { intros r' Hc' Hna'. rewrite (load_data_rows _ _ Hreq).
    eexists. split; [reflexivity|].
    rewrite !total_exports_classify. f_equal.
    rewrite !filter_app, !filter_cons, !fmap_app.
    destruct (decide (field (rename raw) "country" r' ≠ CStr "World")) as [H'|H'],
      (decide (field (rename raw) "country" r ≠ CStr "World")) as [H|H];
      try (by rewrite Hc' in H').
    rewrite !fmap_cons. simpl. by rewrite Hna, Hna'. }
  rewrite !filter_app, filter_cons.
  destruct (decide (field (rename raw) "country" r ≠ CStr "World")) as [Hkeep|Hdrop].
  - split; [intros Hw; by destruct Hkeep|].
    rewrite !fmap_app, !fmap_cons.
    set (A := coerced (rename raw) <$> filter _ rs1).
    set (B := coerced (rename raw) <$> filter _ rs2).
    rewrite !classify_label,
      (median_skip_missing A B (coerced (rename raw) r) Hna).
    rewrite !fmap_app, !fmap_cons.
    intros _. eexists _, _, _. split; [reflexivity|]. split; [reflexivity|].
    split; [unfold A; by rewrite !length_fmap|].
    split; [done|]. split; [exact Hna|].
    split; [apply label_of_missing; by left|].
    by apply total_exports_missing_as_zero.
  - split; [done|]. intros Hkeep. by destruct Hdrop.
Qed.

Lemma coerced_export_values (df : DataFrame) (rs : list (list Cell)) :
  c_export_value <$> (coerced df <$> rs)
  = to_numeric <$> (field df "export_value" <$> rs).
Proof. by rewrite <-!list_fmap_compose. Qed.

Lemma coerced_growths (df : DataFrame) (rs : list (list Cell)) :
  c_growth <$> (coerced df <$> rs) = to_numeric <$> (field df "growth" <$> rs).
Proof. by rewrite <-!list_fmap_compose. Qed.

Lemma load_data_error_columns (raw1 raw2 : DataFrame) (e : Error) :
  columns (rename raw1) = columns (rename raw2) →
  load_data raw1 = inl e → load_data raw2 = inl e.
Proof.
  intros Hcols. unfold load_data.
  rewrite !(get_loc_columns (rename raw1) (rename raw2)) by done.
  destruct (get_loc (rename raw2) "country"); [done|]. simpl.
  destruct (get_loc (rename raw2) "export_value"); [done|]. simpl.
  destruct (get_loc (rename raw2) "growth"); [done|]. simpl.
  destruct (get_loc (rename raw2) "world_rank"); [done|]. done.
Qed.

(** C10.  Two inputs with one renamed header whose rows agree, pair by
    pair, in every column but world_rank load alike as far as the
    strategy goes: the same error, or Datasets whose strategy labels
    agree row for row. *)
Theorem strategy_independent_of_world_rank (raw1 raw2 : DataFrame) :
  same_but_world_rank (rename raw1) (rename raw2) →
  fmap strategy <$> load_data raw1 = fmap strategy <$> load_data raw2.
Proof.
  intros [Hcols Hrows].
  destruct (load_data raw1) as [e|ds1] eqn:Hl1.
  { by rewrite (load_data_error_columns _ _ _ Hcols Hl1). }
  pose proof (load_data_inr_required _ _ _ Hl1) as Hreq1.
  assert (has_required (rename raw2)) as Hreq2.
  { unfold has_required. by rewrite <-Hcols. }
  rewrite (load_data_present _ _ Hreq1) in Hl1. injection Hl1 as <-.
  rewrite (load_data_present _ _ Hreq2).
  unfold fmap at 1 4, result_fmap. f_equal.
  apply classify_strategy_ext.
  - rewrite !coerced_export_values. f_equal. by apply agree_fields.
  - rewrite !coerced_growths. f_equal. by apply agree_fields.
Qed.

End claims.

(** ** The theorems at the example frames *)

(** The third row of [quartet]: value 30 and growth 2 against the
    median 25, hence Invest and no other label. *)
Lemma strategy_follows_quadrant_rule_witness :
  let r := {| country := CStr "C"; export_value := Some (Qc_of_Z 30);
              growth := Some (Qc_of_Z 2); world_rank := Some (Qc_of_Z 3);
              strategy := "Invest" |} in
  load_data int_literal quartet = inr (loaded quartet) ∧
  country <$> loaded quartet = [CStr "A"; CStr "B"; CStr "C"; CStr "D"] ∧
  export_value <$> loaded quartet
    = (λ z, Some (Qc_of_Z z)) <$> [10; 20; 30; 40]%Z ∧
  growth <$> loaded quartet = (λ z, Some (Qc_of_Z z)) <$> [1; -1; 2; -2]%Z ∧
  r ∈ loaded quartet ∧
  median (export_value <$> loaded quartet) = Some (Qc_of_Z 25) ∧
  quadrant (Qc_of_Z 30) (Qc_of_Z 2) (Qc_of_Z 25) "Invest" ∧
  (∀ s, quadrant (Qc_of_Z 30) (Qc_of_Z 2) (Qc_of_Z 25) s → s = "Invest") ∧
  (∀ raw', columns raw' = columns quartet → rows raw' ≡ₚ rows quartet →
     ∃ ds', load_data int_literal raw' = inr ds' ∧ ds' ≡ₚ loaded quartet).
Proof.
  intros r.
  assert (load_data int_literal quartet = inr (loaded quartet)) as Hl
    by reflexivity.
  assert (r ∈ loaded quartet) as Hin
    by (do 2 apply list_elem_of_further; apply list_elem_of_here).
  assert (median (export_value <$> loaded quartet) = Some (Qc_of_Z 25)) as Hmed
    by (vm_compute; f_equal; apply Qc_is_canon; reflexivity).
  destruct (strategy_follows_quadrant_rule int_literal quartet (loaded quartet) Hl)
    as ((Hc & Hv & Hg) & Hrule & Hperm).
  destruct (Hrule r (Qc_of_Z 30) (Qc_of_Z 2) Hin eq_refl eq_refl)
    as (m & Hm & Hq & Hone).
  assert (m = Qc_of_Z 25) as -> by congruence.
  split; [exact Hl|]. split; [exact Hc|]. split; [exact Hv|].
  split; [exact Hg|]. split; [exact Hin|]. split; [exact Hmed|].
  split; [exact Hq|]. split; [exact Hone|]. exact Hperm.
Defined.

(** The second row of [with_na], loaded. *)
Lemma missing_value_is_watch_witness :
  let r := {| country := CStr "B"; export_value := None;
              growth := Some (Qc_of_Z 3); world_rank := Some (Qc_of_Z 2);
              strategy := "Watch" |} in
  load_data int_literal with_na = inr (loaded with_na) ∧
  r ∈ loaded with_na ∧
  (export_value r = None ∨ growth r = None) ∧
  strategy r = "Watch".
Proof.
  intros r.
  assert (load_data int_literal with_na = inr (loaded with_na)) as Hl
    by reflexivity.
  assert (r ∈ loaded with_na) as Hin
    by (apply list_elem_of_further, list_elem_of_here).
  assert (export_value r = None ∨ growth r = None) as Hna by (by left).
  split; [exact Hl|]. split; [exact Hin|]. split; [exact Hna|].
  exact (missing_value_is_watch int_literal with_na (loaded with_na) r Hl Hin Hna).
Defined.

(** The third row of [quartet], loaded. *)
Lemma strategy_is_a_label_witness :
  let r := {| country := CStr "C"; export_value := Some (Qc_of_Z 30);
              growth := Some (Qc_of_Z 2); world_rank := Some (Qc_of_Z 3);
              strategy := "Invest" |} in
  load_data int_literal quartet = inr (loaded quartet) ∧
  r ∈ loaded quartet ∧
  strategy r ∈ ["Invest"; "Nurture"; "Defend"; "Watch"].
Proof.
  intros r.
  assert (load_data int_literal quartet = inr (loaded quartet)) as Hl
    by reflexivity.
  assert (r ∈ loaded quartet) as Hin
    by (do 2 apply list_elem_of_further; apply list_elem_of_here).
  split; [exact Hl|]. split; [exact Hin|].
  exact (strategy_is_a_label int_literal quartet (loaded quartet) r Hl Hin).
Defined.

Lemma missing_column_raises_witness :
  "growth" ∈ REQUIRED ∧
  ("growth" ∉ columns (rename no_growth)) ∧
  (∃ c', c' ∈ REQUIRED ∧ (c' ∉ columns (rename no_growth)) ∧
         load_data int_literal no_growth = inl (KeyError c')) ∧
  ("growth" = "growth" → "country" ∈ columns (rename no_growth) →
   "export_value" ∈ columns (rename no_growth) →
   load_data int_literal no_growth = inl (KeyError "growth")).
Proof.
  assert ("growth" ∈ REQUIRED) as Hreq by (repeat constructor).
  assert ("growth" ∉ columns (rename no_growth)) as Habs.
  { intros Hin. vm_compute in Hin.
    repeat (apply elem_of_cons in Hin as [Hin | Hin]; [discriminate|]).
    by apply not_elem_of_nil in Hin. }
  split; [exact Hreq|]. split; [exact Habs|].
  exact (missing_column_raises int_literal no_growth "growth" Hreq Habs).
Defined.

Lemma unparsable_export_value_is_missing_witness :
  let r := [CStr "B"; txt "N/A"; txt "3"; txt "2"] in
  let rs1 := [[CStr "A"; txt "10"; txt "1"; txt "1"]] in
  let rs2 := [[CStr "C"; txt "30"; txt "-2"; txt "3"]] in
  NoDup (columns (rename with_na)) ∧
  has_required (rename with_na) ∧
  rows with_na = rs1 ++ r :: rs2 ∧
  to_numeric int_literal (field (rename with_na) "export_value" r) = None ∧
  ∃ ds ds',
    load_data int_literal with_na = inr ds ∧
    load_data int_literal {| columns := columns with_na; rows := rs1 ++ rs2 |}
    = inr ds' ∧
    (∀ r', field (rename with_na) "country" r' = field (rename with_na) "country" r →
           to_numeric int_literal (field (rename with_na) "export_value" r') = None →
           ∃ dr, load_data int_literal
                   {| columns := columns with_na; rows := rs1 ++ r' :: rs2 |}
                 = inr dr ∧
                 total_exports dr = total_exports ds) ∧
    (field (rename with_na) "country" r = CStr "World" → ds = ds') ∧
    (field (rename with_na) "country" r ≠ CStr "World" →
     ∃ ds1 rec ds2,
       ds = ds1 ++ rec :: ds2 ∧ ds' = ds1 ++ ds2 ∧
       length ds1
       = length (filter (λ r, field (rename with_na) "country" r ≠ CStr "World") rs1) ∧
       country rec = field (rename with_na) "country" r ∧
       export_value rec = None ∧
       strategy rec = "Watch" ∧
       total_exports ds
       = total_exports
           (ds1 ++ {| country := country rec; export_value := Some (Q2Qc 0);
                      growth := growth rec; world_rank := world_rank rec;
                      strategy := strategy rec |} :: ds2)).
Proof.
  intros r rs1 rs2.
  assert (NoDup (columns (rename with_na))) as Hnd
    by (apply (bool_decide_unpack _); vm_compute; exact I).
  assert (has_required (rename with_na)) as Hreq
    by (unfold has_required; repeat constructor).
  assert (rows with_na = rs1 ++ r :: rs2) as Hrows by reflexivity.
  assert (to_numeric int_literal (field (rename with_na) "export_value" r) = None)
    as Hna by reflexivity.
  split; [exact Hnd|]. split; [exact Hreq|]. split; [exact Hrows|].
  split; [exact Hna|].
  exact (unparsable_export_value_is_missing int_literal with_na rs1 rs2 r
           Hnd Hreq Hrows Hna).
Defined.

Lemma world_row_never_loaded_witness :
  load_data int_literal with_world = inr (loaded with_world) ∧
  (∀ r, r ∈ loaded with_world → country r ≠ CStr "World") ∧
  country <$> loaded with_world
    = field (rename with_world) "country" <$> non_aggregate (rename with_world) ∧
  (∀ rs1 w rs2, rows with_world = rs1 ++ rs2 →
     field (rename with_world) "country" w = CStr "World" →
     load_data int_literal {| columns := columns with_world; rows := rs1 ++ w :: rs2 |}
     = inr (loaded with_world)).
Proof.
  split; [reflexivity|].
  apply (world_row_never_loaded int_literal with_world (loaded with_world)).
  reflexivity.
Defined.

Lemma degenerate_inputs_load_witness :
  NoDup (columns (rename only_world)) ∧
  has_required (rename only_world) ∧
  NoDup (columns (rename all_unparsable)) ∧
  has_required (rename all_unparsable) ∧
  load_data int_literal only_world = inr [] ∧
  ∃ ds, load_data int_literal all_unparsable = inr ds ∧
    length ds = length (non_aggregate (rename all_unparsable)) ∧
    median (export_value <$> ds) = None ∧
    Forall (λ r, export_value r = None ∧ growth r = None ∧
                 world_rank r = None ∧ strategy r = "Watch") ds.
Proof.
  assert (NoDup (columns (rename only_world))) as Hnw
    by (apply (bool_decide_unpack _); vm_compute; exact I).
  assert (has_required (rename only_world)) as Hw
    by (unfold has_required; repeat constructor).
  assert (NoDup (columns (rename all_unparsable))) as Hnu
    by (apply (bool_decide_unpack _); vm_compute; exact I).
  assert (has_required (rename all_unparsable)) as Hu
    by (unfold has_required; repeat constructor).
  split; [exact Hnw|]. split; [exact Hw|]. split; [exact Hnu|].
  split; [exact Hu|]. split.
  - apply (proj1 (degenerate_inputs_load int_literal only_world Hnw Hw)).
    repeat (apply Forall_cons; split; [reflexivity|]). apply Forall_nil_2.
  - apply (proj2 (degenerate_inputs_load int_literal all_unparsable Hnu Hu)).
    repeat (apply Forall_cons; split; [by repeat split|]). apply Forall_nil_2.
Defined.

Lemma strategy_independent_of_world_rank_witness :
  same_but_world_rank (rename quartet) (rename reranked) ∧
  fmap strategy <$> load_data int_literal quartet
  = fmap strategy <$> load_data int_literal reranked.
Proof.
  assert (same_but_world_rank (rename quartet) (rename reranked)) as Hsame.
  { split; [reflexivity|].
    repeat (apply Forall2_cons; split; [|]); [..|apply Forall2_nil_2];
      intros label Hne; unfold field, get_loc; simpl;
      repeat case_decide; subst; done. }
  split; [exact Hsame|].
  exact (strategy_independent_of_world_rank int_literal quartet reranked Hsame).
Defined.

(** * Further properties of [load_data] *)

Lemma rename_label_idemp (c : string) : rename_label (rename_label c) = rename_label c.
Proof. unfold rename_label. repeat case_decide; done. Qed.

Lemma rename_idemp (df : DataFrame) : rename (rename df) = rename df.
Proof.
  unfold rename. simpl. f_equal. rewrite <-list_fmap_compose.
  apply list_fmap_ext. intros _ c _. apply rename_label_idemp.
Qed.

(** A file whose header already carries the short names loads as the file
    with the long names does: renaming twice is renaming once. *)
Theorem load_data_renamed (str_to_float : string → option Qc) (raw : DataFrame) :
  load_data str_to_float (rename raw) = load_data str_to_float raw.
Proof. unfold load_data. by rewrite rename_idemp. Qed.

(** ** Labels of the upper half *)

Lemma ge_true_lt_false (a b : option Qc) : ge a b = true → lt a b = false.
Proof.
  destruct a as [x|], b as [y|]; try done.
  rewrite lt_negb_ge. by intros ->.
Qed.

Lemma label_of_high (m ev : option Qc) (g : Qc) :
  ge ev m = true →
  ((0 ≤ g)%Qc → label_of m ev (Some g) = "Invest") ∧
  ((g < 0)%Qc → label_of m ev (Some g) = "Defend").
Proof.
  intros Hge. unfold label_of, zero.
  rewrite Hge, (ge_true_lt_false _ _ Hge), lt_negb_ge. simpl.
  case_bool_decide as Hg; simpl.
  - split; [done|]. by intros Hlt%Qclt_nge.
  - by split.
Qed.

Lemma label_of_high_inv (m ev g : option Qc) :
  label_of m ev g ∈ ["Invest"; "Defend"] → ge ev m = true.
Proof.
  unfold label_of. destruct (ge ev m); [done|]. simpl.
  destruct (lt ev m && ge g zero); intros Hin;
    repeat (apply elem_of_cons in Hin as [Hin|Hin]; [discriminate|]);
    by apply not_elem_of_nil in Hin.
Qed.

Section more_load_data.

Variable str_to_float : string → option Qc.

Local Abbreviation load_data := (load_data str_to_float).

(** Among the loaded rows with a present growth, the labels Invest and
    Defend are closed upwards in export value: a row at least as large as
    an Invest or Defend row is Invest or Defend itself. *)
Theorem high_value_labels_upward_closed
    (raw : DataFrame) (ds : Dataset) (a b : MarketRecord) (va vb : Qc) :
  load_data raw = inr ds → a ∈ ds → b ∈ ds →
  export_value a = Some va → export_value b = Some vb → (va ≤ vb)%Qc →
  is_Some (growth b) →
  strategy a ∈ ["Invest"; "Defend"] → strategy b ∈ ["Invest"; "Defend"].
Proof.
  intros Hl Ha Hb Hva Hvb Hle [g Hg].
  rewrite (loaded_row_label _ _ _ _ Hl Ha), (loaded_row_label _ _ _ _ Hl Hb).
  intros Hhigh%label_of_high_inv. rewrite Hva in Hhigh.
  destruct (median (export_value <$> ds)) as [m|] eqn:Hm; [|done].
  apply ge_Some in Hhigh.
  assert (ge (export_value b) (Some m) = true) as Hgb.
  { rewrite Hvb. apply ge_Some. by trans va. }
  rewrite Hg. destruct (label_of_high (Some m) (export_value b) g Hgb) as [Hi Hd].
  destruct (decide (0 ≤ g)%Qc) as [Hpos|Hneg%Qclt_nge].
  - rewrite (Hi Hpos). apply list_elem_of_here.
  - rewrite (Hd Hneg). apply list_elem_of_further, list_elem_of_here.
Qed.

End more_load_data.

(** * The summary scalars *)

(** ** The largest value *)

Lemma Qcmax_l (x y : Qc) : (x ≤ Qcmax x y)%Qc.
Proof. unfold Qcmax. case_decide; [done|]. apply Qcle_refl. Qed.

Lemma Qcmax_r (x y : Qc) : (y ≤ Qcmax x y)%Qc.
Proof.
  unfold Qcmax. case_decide as H; [apply Qcle_refl|].
  apply Qclt_le_weak. by apply Qclt_nge.
Qed.

Lemma Qcmax_cases (x y : Qc) : Qcmax x y = x ∨ Qcmax x y = y.
Proof. unfold Qcmax. case_decide; auto. Qed.

Lemma max_cons_Some (x : Qc) (col : list (option Qc)) :
  max (Some x :: col) = Some (from_option (Qcmax x) x (max col)).
Proof. done. Qed.

Lemma max_cons_None (col : list (option Qc)) : max (None :: col) = max col.
Proof. done. Qed.

Lemma max_None (col : list (option Qc)) :
  max col = None ↔ Forall (λ x, x = None) col.
Proof.
  induction col as [|[x|] col IH].
  - done.
  - rewrite max_cons_Some. split; [done|]. by intros [? _]%Forall_cons.
  - rewrite max_cons_None, IH, Forall_cons. tauto.
Qed.

Lemma max_Some (col : list (option Qc)) (m : Qc) :
  max col = Some m → Some m ∈ col ∧ ∀ x, Some x ∈ col → (x ≤ m)%Qc.
Proof.
  revert m. induction col as [|[x|] col IH]; intros m.
  - done.
  - rewrite max_cons_Some. intros [= <-].
    destruct (max col) as [m'|] eqn:Hm; simpl.
    + destruct (IH m' eq_refl) as [Hin Hub]. split.
      * destruct (Qcmax_cases x m') as [-> | ->];
          [apply list_elem_of_here | by apply list_elem_of_further].
      * intros y [[= ->]|Hy]%elem_of_cons; [apply Qcmax_l|].
        trans m'; [by apply Hub | apply Qcmax_r].
    + apply max_None in Hm. rewrite Forall_forall in Hm. split.
      * apply list_elem_of_here.
      * intros y [[= ->]|Hy]%elem_of_cons; [apply Qcle_refl|].
        by apply Hm in Hy.
  - rewrite max_cons_None. intros [Hin Hub]%IH. split.
    + by apply list_elem_of_further.
    + intros y [?|Hy]%elem_of_cons; [done | by apply Hub].
Qed.

(** ** The number of markets *)

Lemma length_remove_dups_le (l : list Cell) :
  (length (remove_dups l) ≤ length l)%nat.
Proof.
  induction l as [|c l IH]; simpl; [done|].
  case_decide; simpl; lia.
Qed.

Lemma remove_dups_NoDup (l : list Cell) : NoDup l → remove_dups l = l.
Proof.
  induction 1 as [|c l Hc _ IH]; simpl; [done|].
  case_decide; [done|]. by rewrite IH.
Qed.

Lemma filter_notna_id (l : list Cell) :
  CNaN ∉ l → filter (λ c, c ≠ CNaN) l = l.
Proof.
  induction l as [|c l IH]; [done|].
  intros [Hc Hl]%not_elem_of_cons.
  rewrite filter_cons_True by done. by rewrite IH.
Qed.

(** The count of active markets is the number of distinct countries: a row
    whose country is NaN or is the country of another row adds nothing, so
    the count is at most the number of rows and equals it when the
    countries are present and pairwise distinct. *)
Theorem active_markets_distinct (df : Dataset) :
  (active_markets df ≤ length df)%nat ∧
  (NoDup (country <$> df) → CNaN ∉ country <$> df →
   active_markets df = length df) ∧
  (∀ r, country r = CNaN ∨ country r ∈ country <$> df →
        active_markets (r :: df) = active_markets df).
Proof.
  unfold active_markets, nunique. split; [|split].
  - etrans; [apply length_remove_dups_le|].
    etrans; [apply length_filter|]. by rewrite length_fmap.
  - intros Hnd Hnan.
    by rewrite filter_notna_id, remove_dups_NoDup, length_fmap.
  - intros r Hr. rewrite fmap_cons.
    destruct (decide (country r = CNaN)) as [Hnan|Hnan].
    + by rewrite filter_cons_False by (intros Hn; by apply Hn).
    + destruct Hr as [?|Hin]; [done|].
      rewrite filter_cons_True by done. simpl.
      case_decide as Hd; [done|]. destruct Hd. by apply list_elem_of_filter.
Qed.

(** * The scatter frame (lines 129-149) *)

Lemma gt_Some (x y : Qc) : gt (Some x) (Some y) = true ↔ (y < x)%Qc.
Proof. unfold gt. apply bool_decide_eq_true. Qed.

Lemma gt_notna (a b : option Qc) : gt a b = true → notna a = true.
Proof. by destruct a. Qed.

(** The frame behind the scatter plot holds, in their order, the rows
    whose export value is present and positive and no other; the test
    [notna()] of line 129 adds nothing to the test [> 0], which NaN fails
    already. *)
Theorem scatter_df_positive (df : Dataset) :
  scatter_df df = filter (λ r, gt (export_value r) zero = true) df ∧
  scatter_df df `sublist_of` df ∧
  (∀ r, r ∈ scatter_df df ↔
        r ∈ df ∧ ∃ v, export_value r = Some v ∧ (0 < v)%Qc).
Proof.
  unfold scatter_df. split; [|split].
  - apply list_filter_iff. intros r. split.
    + by intros [_ ?]%andb_true_iff.
    + intros Hgt. by rewrite Hgt, (gt_notna _ _ Hgt).
  - apply sublist_filter.
  - intros r. rewrite list_elem_of_filter. split.
    + intros [[_ Hgt]%andb_true_iff Hin]. split; [done|].
      destruct (export_value r) as [v|]; [|done].
      exists v. split; [done|]. by apply gt_Some in Hgt.
    + intros [Hin (v & -> & Hv)]. split; [|done].
      simpl. by apply gt_Some.
Qed.

Lemma dropna_scatter (df : Dataset) :
  (∀ r v, r ∈ df → export_value r = Some v → (0 < v)%Qc) →
  dropna (export_value <$> scatter_df df) = dropna (export_value <$> df).
Proof.
  unfold scatter_df, dropna, Dataset in *.
  induction df as [|r df IH]; intros Hpos; [done|].
  rewrite filter_cons.
  assert (∀ r' v, r' ∈ df → export_value r' = Some v → (0 < v)%Qc) as Hpos'
    by (intros r' v Hin; apply Hpos; by apply list_elem_of_further).
  specialize (IH Hpos').
  destruct (export_value r) as [v|] eqn:Hv.
  - rewrite decide_True.
    + rewrite !fmap_cons. cbn [omap list_omap]. rewrite Hv. simpl.
      f_equal. exact IH.
    + simpl. apply gt_Some. apply (Hpos r v); [apply list_elem_of_here | done].
  - rewrite decide_False by done.
    rewrite fmap_cons. cbn [omap list_omap]. rewrite Hv. exact IH.
Qed.

(** When every present export value is positive, the horizontal line of
    the scatter plot is the median of export values of the whole frame,
    the value the classification compares against. *)
Theorem scatter_median_value_all_positive (df : Dataset) :
  (∀ r v, r ∈ df → export_value r = Some v → (0 < v)%Qc) →
  scatter_median_value df = median (export_value <$> df).
Proof.
  intros Hpos. unfold scatter_median_value, median.
  by rewrite dropna_scatter.
Qed.

(** * Sorted views (lines 112, 161-166) *)

Global Instance value_ge_trans : Transitive value_ge.
Proof.
  intros a b c. unfold value_ge.
  destruct (export_value a), (export_value b), (export_value c); try done.
  intros Hab Hbc. by etrans.
Qed.

Global Instance value_ge_total : Total value_ge.
Proof.
  intros a b. unfold value_ge.
  destruct (export_value a) as [x|], (export_value b) as [y|]; auto.
  destruct (total Qcle x y); auto.
Qed.

Lemma stable_sort_descending : descending stable_sort.
Proof.
  intros df. unfold stable_sort. split.
  - apply merge_sort_Permutation.
  - apply (Sorted_merge_sort value_ge).
Qed.

(** The first [n] rows of a descending sort: as many as asked for if there
    are that many, and no row left out has a larger export value than a
    row taken. *)
Lemma head_of_descending (sort_values : Dataset → Dataset) (n : nat) (df : Dataset) :
  descending sort_values →
  length (head n (sort_values df)) = Nat.min n (length df) ∧
  ∃ rest, head n (sort_values df) ++ rest ≡ₚ df ∧
          ∀ a b, a ∈ head n (sort_values df) → b ∈ rest → value_ge a b.
Proof.
  intros Hd. destruct (Hd df) as [Hperm Hsorted]. unfold head. split.
  - by rewrite length_take, Hperm.
  - exists (drop n (sort_values df)). split; [by rewrite take_drop|].
    apply Sorted_StronglySorted in Hsorted; [|apply _].
    rewrite <-(take_drop n (sort_values df)) in Hsorted.
    apply StronglySorted_app in Hsorted as (Hle & _ & _). exact Hle.
Qed.

Section sorted_views.

Variable sort_values : Dataset → Dataset.
Hypothesis sort_values_descending : descending sort_values.

(** The bar chart shows ten rows, all the rows if there are fewer, and no
    row it leaves out has a larger export value than a row it shows. *)
Theorem top10_largest (df : Dataset) :
  length (top10 sort_values df) = Nat.min 10 (length df) ∧
  ∃ rest, top10 sort_values df ++ rest ≡ₚ df ∧
          ∀ a b, a ∈ top10 sort_values df → b ∈ rest → value_ge a b.
Proof. by apply head_of_descending. Qed.

(** The priority markets are Invest rows of the frame, three of them if
    there are three, and no Invest row left out has a larger export value
    than one of them. *)
Theorem focus_top_invest (df : Dataset) :
  Forall (λ r, r ∈ df ∧ strategy r = "Invest") (focus sort_values df) ∧
  length (focus sort_values df)
  = Nat.min 3 (length (filter (λ r, strategy r = "Invest") df)) ∧
  ∃ rest, focus sort_values df ++ rest ≡ₚ filter (λ r, strategy r = "Invest") df ∧
          ∀ a b, a ∈ focus sort_values df → b ∈ rest → value_ge a b.
Proof.
  destruct (head_of_descending sort_values 3
              (filter (λ r, strategy r = "Invest") df) sort_values_descending)
    as [Hlen (rest & Hperm & Hle)].
  split; [|split; [exact Hlen | by exists rest]].
  apply Forall_forall. intros r Hr.
  assert (r ∈ filter (λ r, strategy r = "Invest") df) as Hin.
  { rewrite <-Hperm. apply elem_of_app. by left. }
  apply list_elem_of_filter in Hin as [? ?]. done.
Qed.

(** Line 162 raises [IndexError] exactly on the empty frame; otherwise the
    row it names is a row of the frame whose export value is the largest
    present one, the numerator of the share of line 84 (NaN when no value
    is present). *)
Theorem risk_country_is_largest (df : Dataset) :
  (risk_country sort_values df = inl IndexError ↔ df = []) ∧
  (∀ e, risk_country sort_values df = inl e → e = IndexError) ∧
  (∀ r, risk_country sort_values df = inr r →
        r ∈ df ∧ export_value r = max (export_value <$> df)).
Proof.
  destruct (sort_values_descending df) as [Hperm Hsorted].
  unfold risk_country, iloc0.
  destruct (sort_values df) as [|r l] eqn:Hs.
  - apply Permutation_nil_l in Hperm. subst df.
    split; [done|]. split; [by intros e [= <-] | done].
  - split; [|split]; [|done|].
    + split; [done|]. intros ->. by apply Permutation_nil_r in Hperm.
    + intros r' [= <-].
      assert (r ∈ df) as Hr by (rewrite <-Hperm; apply list_elem_of_here).
      split; [done|].
      apply Sorted_StronglySorted in Hsorted; [|apply _].
      apply StronglySorted_cons in Hsorted as [Hall _].
      assert (∀ b, b ∈ df → value_ge r b) as Hge.
      { intros b Hb. rewrite <-Hperm in Hb.
        apply elem_of_cons in Hb as [->|Hb].
        - destruct (total value_ge r r); done.
        - rewrite Forall_forall in Hall. by apply Hall. }
      destruct (export_value r) as [v|] eqn:Hv.
      * destruct (max (export_value <$> df)) as [m|] eqn:Hm.
        -- apply max_Some in Hm as [(b & Hb & Hbin)%list_elem_of_fmap Hub].
           f_equal. apply (anti_symm Qcle).
           ++ apply Hub. rewrite <-Hv. apply list_elem_of_fmap. eauto.
           ++ specialize (Hge b Hbin). unfold value_ge in Hge.
              by rewrite Hv, <-Hb in Hge.
        -- apply max_None in Hm. rewrite Forall_forall in Hm.
           assert (Some v = None) as Habs; [|done].
           apply Hm. rewrite <-Hv. apply list_elem_of_fmap. eauto.
      * symmetry. apply max_None, Forall_fmap, Forall_forall.
        intros b Hb. specialize (Hge b Hb). unfold value_ge in Hge.
        rewrite Hv in Hge. simpl. by destruct (export_value b).
Qed.

End sorted_views.

(** ** The names of the priority markets (line 166) *)

Lemma strs_Some (cells : list Cell) (l : list string) :
  strs cells = Some l ↔ cells = CStr <$> l.
Proof.
  revert l. induction cells as [|c cells IH]; intros l.
  - simpl. split; [by intros [= <-] | by destruct l].
  - destruct c as [q|s|]; simpl.
    + split; [done | by destruct l].
    + destruct (strs cells) as [l'|] eqn:Hs; simpl.
      * split.
        -- intros [= <-]. rewrite fmap_cons. f_equal. by apply IH.
        -- destruct l as [|s' l]; [done|]. rewrite fmap_cons. intros [= -> Hc].
           apply IH in Hc. by simplify_eq.
      * split; [done|]. destruct l as [|s' l]; [done|].
        rewrite fmap_cons. intros [= -> Hc]. by apply IH in Hc.
    + split; [done | by destruct l].
Qed.

Lemma strs_None (cells : list Cell) :
  strs cells = None ↔ ∃ c, c ∈ cells ∧ ∀ s, c ≠ CStr s.
Proof.
  induction cells as [|c cells IH].
  - simpl. split; [done|]. by intros (c & ?%not_elem_of_nil & _).
  - destruct c as [q|s|]; simpl.
    + split; [|done]. intros _. exists (CNum q). split; [apply list_elem_of_here | done].
    + destruct (strs cells) as [l'|] eqn:Hs; simpl.
      * split; [done|]. intros (c & [->|Hc]%elem_of_cons & Hne).
        -- by destruct (Hne s).
        -- assert (Some l' = None) as Habs; [|done]. apply IH. eauto.
      * split; [|done]. intros _. destruct (proj1 IH eq_refl) as (c & Hc & Hne).
        exists c. split; [by apply list_elem_of_further | done].
    + split; [|done]. intros _. exists CNaN. split; [apply list_elem_of_here | done].
Qed.

(** Line 166 raises [TypeError], and nothing else, exactly when one of the
    priority markets has a country that is not a string (NaN or a number);
    otherwise it gives their names, in order, separated by a comma and a
    space. *)
Theorem priority_markets_join (sort_values : Dataset → Dataset) (df : Dataset) :
  (priority_markets sort_values df = inl TypeError ↔
   ∃ r, r ∈ focus sort_values df ∧ ∀ s, country r ≠ CStr s) ∧
  (∀ e, priority_markets sort_values df = inl e → e = TypeError) ∧
  (∀ s, priority_markets sort_values df = inr s ↔
        ∃ names, country <$> focus sort_values df = CStr <$> names ∧
                 s = String.concat ", " names).
Proof.
  unfold priority_markets, join.
  destruct (strs (country <$> focus sort_values df)) as [l|] eqn:Hs.
  - split; [|split].
    + split; [done|]. intros (r & Hr & Hne).
      assert (Some l = None) as Habs; [|done]. rewrite <-Hs. apply strs_None.
      exists (country r). split; [|done]. apply list_elem_of_fmap. eauto.
    + done.
    + intros s. apply strs_Some in Hs. split.
      * intros [= <-]. by exists l.
      * intros (names & Hn & ->). rewrite Hs in Hn.
        assert (Inj (=) (=) CStr) as Hinj by (by intros ?? [= ->]).
        apply (inj (fmap CStr)) in Hn. by subst.
  - split; [|split].
    + split; [|done]. intros _. apply strs_None in Hs as (c & Hc & Hne).
      apply list_elem_of_fmap in Hc as (r & -> & Hr). eauto.
    + by intros e [= <-].
    + intros s. split; [done|]. intros (names & Hn & _).
      apply strs_Some in Hn. congruence.
Qed.

(** * The further properties at the example frames *)

Lemma loaded_quartet_rows :
  loaded quartet =
    [ mkMarketRecord (CStr "A") (Some (Qc_of_Z 10)) (Some (Qc_of_Z 1))
        (Some (Qc_of_Z 1)) "Nurture";
      mkMarketRecord (CStr "B") (Some (Qc_of_Z 20)) (Some (Qc_of_Z (-1)))
        (Some (Qc_of_Z 2)) "Watch";
      mkMarketRecord (CStr "C") (Some (Qc_of_Z 30)) (Some (Qc_of_Z 2))
        (Some (Qc_of_Z 3)) "Invest";
      mkMarketRecord (CStr "D") (Some (Qc_of_Z 40)) (Some (Qc_of_Z (-2)))
        (Some (Qc_of_Z 4)) "Defend" ].
Proof. reflexivity. Defined.

Lemma Qc_of_Z_le (n m : Z) : (n ≤ m)%Z → (Qc_of_Z n ≤ Qc_of_Z m)%Qc.
Proof. apply Z2Qc_inj_le. Defined.

Lemma Qc_of_Z_lt (n m : Z) : (n < m)%Z → (Qc_of_Z n < Qc_of_Z m)%Qc.
Proof. apply Z2Qc_inj_lt. Defined.

(** Every present export value of the example is between 10 and 40, every
    present growth between -2 and 2. *)
Lemma loaded_quartet_values (r : MarketRecord) (v : Qc) :
  r ∈ loaded quartet → export_value r = Some v →
  (Qc_of_Z 10 ≤ v)%Qc ∧ (v ≤ Qc_of_Z 40)%Qc.
Proof.
  rewrite loaded_quartet_rows. intros Hin Hv.
  repeat (apply elem_of_cons in Hin as [-> | Hin];
          [simpl in Hv; injection Hv as <-; split; apply Qc_of_Z_le; lia|]).
  by apply not_elem_of_nil in Hin.
Defined.

Lemma high_value_labels_upward_closed_witness :
  let a := mkMarketRecord (CStr "C") (Some (Qc_of_Z 30)) (Some (Qc_of_Z 2))
             (Some (Qc_of_Z 3)) "Invest" in
  let b := mkMarketRecord (CStr "D") (Some (Qc_of_Z 40)) (Some (Qc_of_Z (-2)))
             (Some (Qc_of_Z 4)) "Defend" in
  load_data int_literal quartet = inr (loaded quartet) ∧
  a ∈ loaded quartet ∧ b ∈ loaded quartet ∧
  (Qc_of_Z 30 ≤ Qc_of_Z 40)%Qc ∧ is_Some (growth b) ∧
  strategy a ∈ ["Invest"; "Defend"] ∧
  strategy b ∈ ["Invest"; "Defend"].
Proof.
  intros a b.
  assert (load_data int_literal quartet = inr (loaded quartet)) as Hl by reflexivity.
  assert (a ∈ loaded quartet) as Ha
    by (rewrite loaded_quartet_rows; do 2 apply list_elem_of_further; apply list_elem_of_here).
  assert (b ∈ loaded quartet) as Hb
    by (rewrite loaded_quartet_rows; do 3 apply list_elem_of_further; apply list_elem_of_here).
  assert (Qc_of_Z 30 ≤ Qc_of_Z 40)%Qc as Hle by (apply Qc_of_Z_le; lia).
  assert (is_Some (growth b)) as Hg by (by eexists).
  assert (strategy a ∈ ["Invest"; "Defend"]) as Hs by apply list_elem_of_here.
  repeat (split; [assumption|]).
  exact (high_value_labels_upward_closed int_literal quartet (loaded quartet) a b
           (Qc_of_Z 30) (Qc_of_Z 40) Hl Ha Hb eq_refl eq_refl Hle Hg Hs).
Defined.

Lemma scatter_median_value_all_positive_witness :
  (∀ r v, r ∈ loaded quartet → export_value r = Some v → (0 < v)%Qc) ∧
  scatter_median_value (loaded quartet) = median (export_value <$> loaded quartet).
Proof.
  assert (∀ r v, r ∈ loaded quartet → export_value r = Some v → (0 < v)%Qc) as Hpos.
  { intros r v Hin Hv. apply Qclt_le_trans with (Qc_of_Z 10).
    - by apply (Qc_of_Z_lt 0 10).
    - exact (proj1 (loaded_quartet_values r v Hin Hv)). }
  split; [exact Hpos|].
  exact (scatter_median_value_all_positive (loaded quartet) Hpos).
Defined.

Lemma top10_largest_witness :
  descending stable_sort ∧
  length (top10 stable_sort (loaded quartet)) = Nat.min 10 (length (loaded quartet)) ∧
  ∃ rest, top10 stable_sort (loaded quartet) ++ rest ≡ₚ loaded quartet ∧
          ∀ a b, a ∈ top10 stable_sort (loaded quartet) → b ∈ rest → value_ge a b.
Proof.
  split; [exact stable_sort_descending|].
  exact (top10_largest stable_sort stable_sort_descending (loaded quartet)).
Defined.

Lemma focus_top_invest_witness :
  descending stable_sort ∧
  Forall (λ r, r ∈ loaded quartet ∧ strategy r = "Invest")
         (focus stable_sort (loaded quartet)) ∧
  length (focus stable_sort (loaded quartet))
  = Nat.min 3 (length (filter (λ r, strategy r = "Invest") (loaded quartet))) ∧
  ∃ rest, focus stable_sort (loaded quartet) ++ rest
            ≡ₚ filter (λ r, strategy r = "Invest") (loaded quartet) ∧
          ∀ a b, a ∈ focus stable_sort (loaded quartet) → b ∈ rest → value_ge a b.
Proof.
  split; [exact stable_sort_descending|].
  exact (focus_top_invest stable_sort stable_sort_descending (loaded quartet)).
Defined.

Lemma risk_country_is_largest_witness :
  descending stable_sort ∧
  (risk_country stable_sort (loaded quartet) = inl IndexError ↔ loaded quartet = []) ∧
  (∀ e, risk_country stable_sort (loaded quartet) = inl e → e = IndexError) ∧
  (∀ r, risk_country stable_sort (loaded quartet) = inr r →
        r ∈ loaded quartet ∧ export_value r = max (export_value <$> loaded quartet)).
Proof.
  split; [exact stable_sort_descending|].
  exact (risk_country_is_largest stable_sort stable_sort_descending (loaded quartet)).
Defined.
